(** * CombinedGameEvents: a shallow embedding of the event-table component

    The component ([src/unnamed/part_000]) fetches the [Roll] logs of two
    game contracts over a recent block window, merges them into a capped,
    most-recent-first list, and keeps that list up to date from a live
    subscription.  The RPC provider and the ABI decoder are external; they
    are modelled as oracles (a [Provider] record), and the component's React
    state as an explicit state record updated by the setter calls the code
    makes. *)

From Stdlib Require Import List ZArith Lia String Ascii Bool.
From Stdlib Require Import Sorted Permutation.
Import ListNotations.
Open Scope Z_scope.

(** ** Constants (lines 33-39) *)

Definition DICE_CONTRACT_ADDRESS : string :=
  "0x095b5DB1A520d96BcAc69E2AeD832273A6f08343"%string.
Definition COINFLIP_CONTRACT_ADDRESS : string :=
  "0xb7b23027C7E861d59d2f5b2fE8B3E97ECA534c42"%string.
Definition MAX_RESULTS : nat := 12.
Definition TOTAL_BLOCKS_TO_CHECK : Z := 2000.
Definition MAX_CHUNK_SIZE : Z := 450.

(** ** Data model *)

Inductive gameType := Dice | Coinflip.

(** [GameEvent] (lines 5-15).  The fields read through [parsedLog?.args]
    are [undefined] when [parseLog] returns [null]; they are [option]s here,
    [None] standing for [undefined] (and for [NaN] after [Number(...)]). *)
Record GameEvent := mkGameEvent {
  blockNumber : Z;
  transactionHash : string;
  player : option string;
  amount : option Z;
  choice : option Z;
  outcome : option Z;
  won : option bool;
  ev_gameType : gameType;
  timestamp : Z
}.

(** An [ethers.Log], reduced to what the component reads; the topics and
    data are only passed to the decoder, which is an oracle below. *)
Record Log := mkLog {
  log_blockNumber : Z;
  log_transactionHash : option string;  (* [None]: null *)
  log_topics_data : string
}.

(** The decoded arguments of a [Roll] event. *)
Record RollArgs := mkRollArgs {
  arg_player : string;
  arg_amount : Z;
  arg_choice : Z;
  arg_outcome : Z;
  arg_won : bool
}.

(** [iface.parseLog] either throws, returns [null] (no matching fragment)
    or returns the decoded log. *)
Inductive parse_result := ParseThrows | ParseNull | Parsed (a : RollArgs).

(** [provider.getBlock]: throws, resolves to [null], or to a block. *)
Inductive block_result := BlockThrows | BlockNull | Block (ts : Z).

(** The external services used by the component. *)
Record Provider := mkProvider {
  getBlockNumber : option Z;                         (* [None]: rejects *)
  getLogs : string -> Z -> Z -> option (list Log);  (* address, fromBlock, toBlock; [None]: throws *)
  getBlock : Z -> block_result;
  parseLog : Log -> parse_result
}.

(** ** String helpers *)

(** [String.prototype.toLowerCase] on the ASCII range (addresses are
    hexadecimal ASCII strings). *)
Definition lower_ascii (c : ascii) : ascii :=
  let n := nat_of_ascii c in
  if (Nat.leb 65 n && Nat.leb n 90)%bool then ascii_of_nat (n + 32) else c.

Fixpoint toLowerCase (s : string) : string :=
  match s with
  | EmptyString => EmptyString
  | String c s' => String (lower_ascii c) (toLowerCase s')
  end.

(** [log.transactionHash || "unknown"]: the empty string is falsy too. *)
Definition hash_or_unknown (h : option string) : string :=
  match h with
  | Some s => if String.eqb s "" then "unknown"%string else s
  | None => "unknown"%string
  end.

(** ** Sorting: [.sort((a, b) => b.blockNumber - a.blockNumber)]

    [Array.prototype.sort] is stable (ECMAScript 2019 onwards), so its
    result with this comparator is determined: the elements in descending
    [blockNumber], ties kept in input order.  Insertion sort computes it:
    the head is inserted in front of the first element that is not
    greater than it. *)
Fixpoint insert_desc (e : GameEvent) (l : list GameEvent) : list GameEvent :=
  match l with
  | [] => [e]
  | x :: xs =>
      if Z.leb (blockNumber x) (blockNumber e) then e :: x :: xs
      else x :: insert_desc e xs
  end.

Fixpoint sort_desc (l : list GameEvent) : list GameEvent :=
  match l with
  | [] => []
  | x :: xs => insert_desc x (sort_desc xs)
  end.

(** [.slice(0, MAX_RESULTS)] *)
Definition slice_max (l : list GameEvent) : list GameEvent :=
  firstn MAX_RESULTS l.

(** ** The state updates of the component *)

(** Lines 117-119: the historical merge. *)
Definition merge_historical (diceEvents coinflipEvents : list GameEvent)
  : list GameEvent :=
  slice_max (sort_desc (diceEvents ++ coinflipEvents)).

(** Lines 157-160: the functional updater passed to [setEvents] by
    [handleLog]. *)
Definition insert_event (newEvent : GameEvent) (prev : list GameEvent)
  : list GameEvent :=
  if existsb (fun e => String.eqb (transactionHash e) (transactionHash newEvent)) prev
  then prev
  else slice_max (sort_desc (newEvent :: prev)).

(** The setter calls of the component. *)
Inductive action :=
  | SetEventsTo (l : list GameEvent)
  | SetEventsWith (f : list GameEvent -> list GameEvent)
  | SetLoading (b : bool)
  | SetError (e : option string).

Record St := mkSt {
  st_events : list GameEvent;
  st_loading : bool;
  st_error : option string
}.

(** [useState] initial values (lines 43-45). *)
Definition init_state : St := mkSt [] true None.

Definition apply_action (s : St) (a : action) : St :=
  match a with
  | SetEventsTo l => mkSt l (st_loading s) (st_error s)
  | SetEventsWith f => mkSt (f (st_events s)) (st_loading s) (st_error s)
  | SetLoading b => mkSt (st_events s) b (st_error s)
  | SetError e => mkSt (st_events s) (st_loading s) e
  end.

Definition apply_actions (s : St) (l : list action) : St :=
  fold_left apply_action l s.

(** ** Historical fetch: [fetchEventsForContract] (lines 59-106) *)

(** [Math.ceil(a / b)] for [b > 0]. *)
Definition ceil_div (a b : Z) : Z := - ((- a) / b).

Definition startBlock (latestBlock : Z) : Z :=
  Z.max (latestBlock - TOTAL_BLOCKS_TO_CHECK) 0.

Definition chunksNeeded (latestBlock : Z) : Z :=
  ceil_div (latestBlock - startBlock latestBlock) MAX_CHUNK_SIZE.

(** The [fromBlock] and [toBlock] of iteration [i] (lines 67-70). *)
Definition chunk_range (latestBlock start i : Z) : Z * Z :=
  let chunkStart := latestBlock - (i * MAX_CHUNK_SIZE) - MAX_CHUNK_SIZE in
  let chunkEnd := latestBlock - (i * MAX_CHUNK_SIZE) in
  (Z.max chunkStart start, chunkEnd).

(** The loop of lines 66-83.  [alive i] is the value of [isMounted] at the
    [i]-th loop test; [fuel] counts the iterations left before
    [i < chunksNeeded] fails.  The result is the list of [getLogs] queries
    made, in order, and [allLogs]: a chunk whose [getLogs] throws adds
    nothing (the [catch] is empty). *)
Fixpoint chunk_loop (P : Provider) (contractAddress : string)
    (latestBlock start : Z) (alive : Z -> bool) (i : Z) (fuel : nat)
  : list (Z * Z) * list Log :=
  match fuel with
  | O => ([], [])
  | S fuel' =>
      if alive i then
        let r := chunk_range latestBlock start i in
        let logs := match getLogs P contractAddress (fst r) (snd r) with
                    | Some logs => logs
                    | None => []
                    end in
        let rest := chunk_loop P contractAddress latestBlock start alive (i + 1) fuel' in
        (r :: fst rest, (logs ++ snd rest)%list)
      else ([], [])
  end.

Definition args_of (pr : parse_result) : option RollArgs :=
  match pr with Parsed a => Some a | _ => None end.

(** The record built from a log (lines 92-102 and 145-155). *)
Definition make_event (log : Log) (pr : parse_result) (player : option string)
    (gt : gameType) (ts : Z) : GameEvent :=
  mkGameEvent (log_blockNumber log) (hash_or_unknown (log_transactionHash log))
    player
    (option_map arg_amount (args_of pr))
    (option_map arg_choice (args_of pr))
    (option_map arg_outcome (args_of pr))
    (option_map arg_won (args_of pr))
    gt ts.

(** One iteration of lines 86-104: [None] when the body throws or hits
    [continue]. *)
Definition parse_one (P : Provider) (gt : gameType) (log : Log) : option GameEvent :=
  match parseLog P log with
  | ParseThrows => None
  | pr =>
      let player := option_map (fun a => toLowerCase (arg_player a)) (args_of pr) in
      match getBlock P (log_blockNumber log) with
      | BlockThrows => None
      | BlockNull => None
      | Block ts => Some (make_event log pr player gt ts)
      end
  end.

Fixpoint parse_logs (P : Provider) (gt : gameType) (logs : list Log) : list GameEvent :=
  match logs with
  | [] => []
  | log :: rest =>
      match parse_one P gt log with
      | Some e => e :: parse_logs P gt rest
      | None => parse_logs P gt rest
      end
  end.

(** The whole function: it rejects only when [getBlockNumber] rejects. *)
Definition fetchEventsForContract (P : Provider) (alive : Z -> bool)
    (contractAddress : string) (gt : gameType) : option (list GameEvent) :=
  match getBlockNumber P with
  | None => None
  | Some latestBlock =>
      let start := startBlock latestBlock in
      let allLogs := snd (chunk_loop P contractAddress latestBlock start alive 0
                            (Z.to_nat (chunksNeeded latestBlock))) in
      Some (parse_logs P gt allLogs)
  end.

(** [Promise.all] of the two fetches. *)
Definition promise_all (r1 r2 : option (list GameEvent))
  : option (list GameEvent * list GameEvent) :=
  match r1, r2 with
  | Some d, Some c => Some (d, c)
  | _, _ => None
  end.

(** Lines 111-125, after the [await]: the setter calls made, given the
    value of [isMounted] when the [await] resumes.  The [return] of line 116
    still runs the [finally] block. *)
Definition historical_after_await (isMounted : bool)
    (r : option (list GameEvent * list GameEvent)) : list action :=
  match r with
  | None => [SetError (Some "Failed to fetch events"%string); SetLoading false]
  | Some (diceEvents, coinflipEvents) =>
      ((if isMounted then [SetEventsTo (merge_historical diceEvents coinflipEvents)]
       else [])
      ++ [SetLoading false])%list
  end.

(** The historical run of the first effect on the two providers' answers. *)
Definition historical_run (P_dice P_coin : Provider) (alive : Z -> bool)
    (isMounted : bool) : list action :=
  historical_after_await isMounted
    (promise_all (fetchEventsForContract P_dice alive DICE_CONTRACT_ADDRESS Dice)
                 (fetchEventsForContract P_coin alive COINFLIP_CONTRACT_ADDRESS Coinflip)).

(** ** Live subscription: [handleLog] (lines 138-163)

    [isMounted] is the value of the flag when line 156 is reached. *)
Definition handleLog (P : Provider) (currentAccount : string) (isMounted : bool)
    (log : Log) (gt : gameType) : list action :=
  match parseLog P log with
  | ParseThrows => []
  | pr =>
      let player := option_map (fun a => toLowerCase (arg_player a)) (args_of pr) in
      let same := match player with
                  | Some p => String.eqb p (toLowerCase currentAccount)
                  | None => false
                  end in
      if negb same then []
      else
        match getBlock P (log_blockNumber log) with
        | Block ts =>
            if isMounted
            then [SetEventsWith (insert_event (make_event log pr player gt ts))]
            else []
        | _ => []
        end
  end.

(** ** The two effects (lines 48-53, 108-110 and 132-135) *)

Inductive op :=
  | OpSet (a : action)
  | OpFetchHistory (contractAddress : string) (gt : gameType)
  | OpSubscribe (contractAddress : string) (gt : gameType).

(** [!currentAccount]: [undefined] and the empty string are falsy. *)
Definition account_truthy (currentAccount : option string) : bool :=
  match currentAccount with
  | Some s => negb (String.eqb s ""%string)
  | None => false
  end.

Definition history_effect (isConnected : bool) (currentAccount : option string)
  : list op :=
  if negb isConnected || negb (account_truthy currentAccount) then
    [OpSet (SetEventsTo []); OpSet (SetLoading false)]
  else
    [OpSet (SetLoading true); OpSet (SetError None);
     OpFetchHistory DICE_CONTRACT_ADDRESS Dice;
     OpFetchHistory COINFLIP_CONTRACT_ADDRESS Coinflip].

Definition subscribe_effect (isConnected : bool) (currentAccount : option string)
  : list op :=
  if negb isConnected || negb (account_truthy currentAccount) then []
  else [OpSubscribe DICE_CONTRACT_ADDRESS Dice;
        OpSubscribe COINFLIP_CONTRACT_ADDRESS Coinflip].

Fixpoint setter_calls (ops : list op) : list action :=
  match ops with
  | [] => []
  | OpSet a :: rest => a :: setter_calls rest
  | _ :: rest => setter_calls rest
  end.

(** ** Rendering (lines 191-201) *)

Inductive view :=
  | ViewLoading
  | ViewError (text : string)
  | ViewNothing
  | ViewTable (rows : list GameEvent)
  | ViewThrows.

(** Drawing a row calls [formatEther(event.amount)] (line 242), which
    throws when the amount is [undefined]. *)
Definition row_renders (e : GameEvent) : bool :=
  match amount e with Some _ => true | None => false end.

Definition render (s : St) : view :=
  if st_loading s && Nat.eqb (List.length (st_events s)) 0 then ViewLoading
  else if match st_error s with
          | Some e => negb (String.eqb e ""%string)
          | None => false
          end
  then ViewError "Error"%string
  else if Nat.eqb (List.length (st_events s)) 0 then ViewNothing
  else if forallb row_renders (st_events s) then ViewTable (st_events s)
  else ViewThrows.

(** ** [formatTimestamp] (lines 182-189) *)

(** Decimal digits of a non-negative integer, as [`${n}`] prints it.
    [fuel] bounds the number of digits. *)
Fixpoint dec_aux (fuel : nat) (n : Z) (acc : string) : string :=
  match fuel with
  | O => acc
  | S fuel' =>
      let acc' := String (ascii_of_nat (48 + Z.to_nat (n mod 10))) acc in
      if Z.eqb (n / 10) 0 then acc' else dec_aux fuel' (n / 10) acc'
  end.

Definition dec (n : Z) : string := dec_aux (S (Z.to_nat (Z.log2 n))) n EmptyString.

(** [x === 1 ? '' : 's'] *)
Definition plural_s (x : Z) : string := if Z.eqb x 1 then EmptyString else "s"%string.

(** The largest time value of a valid [Date], in milliseconds. *)
Definition MAX_DATE_MS : Z := 8640000000000000.

(** [nowMs] is [Date.now()]; [timestamp] is in seconds.  Beyond
    [MAX_DATE_MS] [new Date(timestamp * 1000)] is an Invalid Date whose
    [getTime()] is [NaN]: every comparison with [diff] fails and the
    result is [`${NaN} days ago`].  Otherwise both values are integers
    below 2^53, so [Math.floor((nowMs - timestamp * 1000) / 60000)] is the
    integer floor division. *)
Definition formatTimestamp (nowMs timestamp : Z) : string :=
  let diff := (nowMs - timestamp * 1000) / 60000 in
  if MAX_DATE_MS <? Z.abs (timestamp * 1000) then "NaN days ago"%string
  else if diff <? 1 then "Just now"%string
  else if diff <? 60 then (dec diff ++ " min" ++ plural_s diff ++ " ago")%string
  else if diff <? 1440 then
    (dec (diff / 60) ++ " hour" ++ plural_s (diff / 60) ++ " ago")%string
  else (dec (diff / 1440) ++ " day" ++ plural_s (diff / 1440) ++ " ago")%string.

(** ** Reachable states

    Every setter call the component can make, in any interleaving: an
    effect run, the end of any historical fetch, and any subscription log. *)
Inductive reachable : St -> Prop :=
  | reach_init : reachable init_state
  | reach_effect : forall s isConnected currentAccount,
      reachable s ->
      reachable (apply_actions s (setter_calls (history_effect isConnected currentAccount)))
  | reach_historical : forall s isMounted r,
      reachable s -> reachable (apply_actions s (historical_after_await isMounted r))
  | reach_log : forall s P currentAccount isMounted log gt,
      reachable s ->
      reachable (apply_actions s (handleLog P currentAccount isMounted log gt)).

(** Most-recent-first: adjacent records in non-increasing [blockNumber]. *)
Definition desc (a b : GameEvent) : Prop := blockNumber b <= blockNumber a.

(** The invariant of the events list: capped and most-recent-first. *)
Definition events_inv (l : list GameEvent) : Prop :=
  (List.length l <= MAX_RESULTS)%nat /\ Sorted desc l.

(** A setter call keeps a predicate on the events list. *)
Definition keeps (Q : list GameEvent -> Prop) (a : action) : Prop :=
  match a with
  | SetEventsTo l => Q l
  | SetEventsWith f => forall prev, Q prev -> Q (f prev)
  | SetLoading _ => True
  | SetError _ => True
  end.

(** ** Concrete scenarios *)

(** A node whose chain holds [logs] for one contract, at height
    [latestBlock]: [getLogs] answers with the logs of the inclusive range
    [fromBlock, toBlock], every block is found (timestamp 0), and every log
    decodes as a [Roll] by player [0xBEEF]. *)
Definition chain_provider (latestBlock : Z) (logs : list Log) : Provider :=
  mkProvider (Some latestBlock)
    (fun _ fromBlock toBlock =>
       Some (filter (fun l => Z.leb fromBlock (log_blockNumber l)
                              && Z.leb (log_blockNumber l) toBlock) logs))
    (fun _ => Block 0)
    (fun _ => Parsed (mkRollArgs "0xBEEF"%string 1 0 1 true)).

(** A node whose [getBlockNumber] rejects. *)
Definition down_provider : Provider :=
  mkProvider None (fun _ _ _ => None) (fun _ => BlockNull) (fun _ => ParseThrows).

(** One Roll log in block 1550, the boundary of the first two chunks when
    the latest block is 2000. *)
Definition boundary_log : Log := mkLog 1550 (Some "0xaa"%string) "".


Definition sample_event : GameEvent :=
  mkGameEvent 7 "0xaa"%string (Some "0xbeef"%string) (Some 1) (Some 0) (Some 1)
    (Some true) Dice 0.

(** The logs a chunk contributes to [allLogs]: none when [getLogs] throws. *)
Definition chunk_logs (P : Provider) (contractAddress : string) (r : Z * Z) : list Log :=
  match getLogs P contractAddress (fst r) (snd r) with
  | Some logs => logs
  | None => []
  end.

(** [i], [i + 1], ..., [i + n - 1]. *)
Fixpoint zseq (i : Z) (n : nat) : list Z :=
  match n with
  | O => []
  | S n' => i :: zseq (i + 1) n'
  end.

(** A dice record of block [b]. *)
Definition event_at (b : Z) : GameEvent :=
  mkGameEvent b "0xaa"%string (Some "0xbeef"%string) (Some 1) (Some 0) (Some 1)
    (Some true) Dice 0.

(** ** Sorting lemmas *)

Lemma insert_desc_perm : forall e l, Permutation (insert_desc e l) (e :: l).
Proof.
  intros e l; induction l as [|x xs IH]; simpl; [reflexivity|].
  destruct (Z.leb (blockNumber x) (blockNumber e)); [reflexivity|].
  rewrite IH. apply perm_swap.
Qed.

Lemma sort_desc_perm : forall l, Permutation (sort_desc l) l.
Proof.
  induction l as [|x xs IH]; simpl; [reflexivity|].
  rewrite insert_desc_perm. now apply perm_skip.
Qed.

Lemma insert_desc_sorted : forall e l, Sorted desc l -> Sorted desc (insert_desc e l).
Proof.
  intros e l; induction l as [|x xs IH]; intros Hs; simpl.
  - repeat constructor.
  - destruct (Z.leb (blockNumber x) (blockNumber e)) eqn:Hle.
    + constructor; [exact Hs|]. constructor. unfold desc. apply Z.leb_le in Hle. exact Hle.
    + apply Z.leb_gt in Hle.
      apply Sorted_inv in Hs as [Hxs Hhd].
      constructor; [now apply IH|].
      destruct xs as [|y ys]; simpl.
      * constructor. unfold desc. lia.
      * destruct (Z.leb (blockNumber y) (blockNumber e)).
        -- constructor. unfold desc. lia.
        -- now apply HdRel_inv in Hhd; constructor.
Qed.

Lemma sort_desc_sorted : forall l, Sorted desc (sort_desc l).
Proof.
  induction l as [|x xs IH]; simpl; [constructor|].
  now apply insert_desc_sorted.
Qed.

Lemma firstn_sorted : forall (n : nat) l, Sorted desc l -> Sorted desc (firstn n l).
Proof.
  induction n as [|n IH]; intros l Hs; simpl; [constructor|].
  destruct l as [|x xs]; [constructor|].
  apply Sorted_inv in Hs as [Hxs Hhd].
  constructor; [now apply IH|].
  destruct n as [|n]; simpl; [constructor|].
  destruct xs as [|y ys]; [constructor|].
  apply HdRel_inv in Hhd. now constructor.
Qed.

Lemma slice_max_inv : forall l, Sorted desc l -> events_inv (slice_max l).
Proof.
  intros l Hs. split.
  - apply firstn_le_length.
  - now apply firstn_sorted.
Qed.

Lemma merge_historical_inv : forall d c, events_inv (merge_historical d c).
Proof.
  intros d c. apply slice_max_inv, sort_desc_sorted.
Qed.

Lemma insert_event_inv : forall e prev, events_inv prev -> events_inv (insert_event e prev).
Proof.
  intros e prev Hp. unfold insert_event.
  destruct existsb; [exact Hp|].
  apply slice_max_inv, sort_desc_sorted.
Qed.

(** ** Setter-call lemmas *)

Lemma apply_actions_keeps : forall (Q : list GameEvent -> Prop) acts s,
  Forall (keeps Q) acts -> Q (st_events s) -> Q (st_events (apply_actions s acts)).
Proof.
  intros Q acts; induction acts as [|a acts IH]; intros s Hall Hq; simpl; [exact Hq|].
  inversion Hall as [|? ? Ha Hrest]; subst.
  apply IH; [exact Hrest|].
  destruct a; simpl in *; auto.
Qed.

Lemma history_effect_keeps : forall (Q : list GameEvent -> Prop) isConnected currentAccount,
  Q [] -> Forall (keeps Q) (setter_calls (history_effect isConnected currentAccount)).
Proof.
  intros Q c a HQ. unfold history_effect.
  destruct (negb c || negb (account_truthy a)); simpl; repeat constructor; exact HQ.
Qed.

Lemma historical_keeps : forall (Q : list GameEvent -> Prop) isMounted r,
  (forall d c, Q (merge_historical d c)) ->
  Forall (keeps Q) (historical_after_await isMounted r).
Proof.
  intros Q m r HQ. destruct r as [[d c]|]; simpl.
  - destruct m; simpl; repeat constructor; apply HQ.
  - repeat constructor.
Qed.

Lemma handleLog_keeps : forall (Q : list GameEvent -> Prop) P acc isMounted log gt,
  (forall e prev, Q prev -> Q (insert_event e prev)) ->
  Forall (keeps Q) (handleLog P acc isMounted log gt).
Proof.
  intros Q P acc m log gt HQ. unfold handleLog.
  destruct (parseLog P log); try constructor;
  destruct negb; try constructor;
  destruct (getBlock P (log_blockNumber log)); try constructor;
  destruct m; repeat constructor; simpl; intros; now apply HQ.
Qed.


(** ** Claims *)

(** C1: in every reachable state the events list holds at most 12 records
    and is ordered most-recent-first (adjacent records have non-increasing
    [blockNumber]); the historical merge, every subscription insertion and
    the reset of the disconnected path all keep this. *)
Theorem events_capped_and_sorted : forall s, reachable s -> events_inv (st_events s).
Proof.
  induction 1 as [| s c a Hr IH | s m r Hr IH | s P a m log gt Hr IH].
  - split; simpl; [unfold MAX_RESULTS; lia | constructor].
  - apply apply_actions_keeps; [|exact IH].
    apply history_effect_keeps. split; simpl; [unfold MAX_RESULTS; lia | constructor].
  - apply apply_actions_keeps; [|exact IH].
    apply historical_keeps, merge_historical_inv.
  - apply apply_actions_keeps; [|exact IH].
    apply handleLog_keeps, insert_event_inv.
Qed.

Lemma events_capped_and_sorted_witness :
  reachable (apply_actions init_state (historical_after_await true (Some ([sample_event], []))))
  /\ events_inv (st_events (apply_actions init_state
                   (historical_after_await true (Some ([sample_event], []))))).
Proof.
  split.
  - apply reach_historical, reach_init.
  - apply events_capped_and_sorted. apply reach_historical, reach_init.
Defined.

(** C3: for all lists of decoded dice and coinflip events, the historical
    result stored into state (line 120, reached when the fetch resolves and
    the component is mounted) is their concatenation sorted in descending
    [blockNumber] and truncated to its first 12 records. *)
Theorem historical_result_sorted_truncated : forall s diceEvents coinflipEvents,
  st_events (apply_actions s (historical_after_await true
               (promise_all (Some diceEvents) (Some coinflipEvents))))
    = merge_historical diceEvents coinflipEvents
  /\ exists sorted,
       Permutation sorted (diceEvents ++ coinflipEvents)
       /\ Sorted desc sorted
       /\ merge_historical diceEvents coinflipEvents = firstn 12 sorted.
Proof.
  intros s d c. split; [reflexivity|].
  exists (sort_desc (d ++ c)). repeat split.
  - apply sort_desc_perm.
  - apply sort_desc_sorted.
Qed.

(** C4: the updater of [handleLog] returns [prev] unchanged when a record
    of [prev] has the new event's [transactionHash]; otherwise it returns
    the new event together with [prev], sorted in descending [blockNumber]
    and truncated to 12 records. *)
Theorem insert_event_spec : forall e prev,
  (Exists (fun r => transactionHash r = transactionHash e) prev ->
     insert_event e prev = prev)
  /\ (~ Exists (fun r => transactionHash r = transactionHash e) prev ->
      exists sorted,
        Permutation sorted (e :: prev)
        /\ Sorted desc sorted
        /\ insert_event e prev = firstn 12 sorted).
Proof.
  intros e prev. unfold insert_event.
  destruct (existsb (fun r => String.eqb (transactionHash r) (transactionHash e)) prev)
    eqn:Hex.
  - split; [reflexivity|]. intros Hn. exfalso. apply Hn.
    apply existsb_exists in Hex as [x [Hin Heq]].
    apply Exists_exists. exists x. split; [exact Hin|]. now apply String.eqb_eq.
  - split.
    + intros Hx. exfalso.
      apply Exists_exists in Hx as [x [Hin Heq]].
      assert (existsb (fun r => String.eqb (transactionHash r) (transactionHash e)) prev = true)
        as Ht.
      { apply existsb_exists. exists x. split; [exact Hin|]. now apply String.eqb_eq. }
      congruence.
    + intros _. exists (sort_desc (e :: prev)). repeat split.
      * apply sort_desc_perm.
      * apply sort_desc_sorted.
Qed.

Lemma insert_event_spec_witness :
  insert_event sample_event [sample_event] = [sample_event]
  /\ exists sorted,
       Permutation sorted [sample_event]
       /\ Sorted desc sorted
       /\ insert_event sample_event [] = firstn 12 sorted.
Proof.
  split.
  - apply (proj1 (insert_event_spec sample_event [sample_event])).
    constructor. reflexivity.
  - apply (proj2 (insert_event_spec sample_event [])).
    intros H. inversion H.
Defined.

(** C5: a subscription log whose decoded player differs from the connected
    account after lowercasing both leaves the events list untouched (no
    setter call); every setter call [handleLog] makes is the insertion of a
    record whose decoded player equals the account after lowercasing. *)
Theorem handleLog_filters_account : forall P currentAccount isMounted log gt,
  (forall a, parseLog P log = Parsed a ->
     toLowerCase (arg_player a) <> toLowerCase currentAccount ->
     handleLog P currentAccount isMounted log gt = [])
  /\ (forall c, In c (handleLog P currentAccount isMounted log gt) ->
      exists a ts,
        parseLog P log = Parsed a
        /\ toLowerCase (arg_player a) = toLowerCase currentAccount
        /\ c = SetEventsWith (insert_event
                 (make_event log (Parsed a) (Some (toLowerCase currentAccount)) gt ts))).
Proof.
  intros P acc m log gt. unfold handleLog. split.
  - intros a Hp Hne. rewrite Hp. simpl.
    destruct (String.eqb (toLowerCase (arg_player a)) (toLowerCase acc)) eqn:He.
    + apply String.eqb_eq in He. contradiction.
    + reflexivity.
  - intros c Hin.
    destruct (parseLog P log) as [| | a] eqn:Hp; simpl in Hin; try contradiction.
    destruct (String.eqb (toLowerCase (arg_player a)) (toLowerCase acc)) eqn:He;
      simpl in Hin; [|contradiction].
    apply String.eqb_eq in He.
    destruct (getBlock P (log_blockNumber log)) as [| |ts]; try contradiction.
    destruct m; [|contradiction].
    destruct Hin as [<-|[]].
    exists a, ts. repeat split; [exact He|]. now rewrite He.
Qed.

Lemma handleLog_filters_account_witness :
  handleLog (chain_provider 10 []) "0xCAFE"%string true boundary_log Dice = []
  /\ (forall c, In c (handleLog (chain_provider 10 []) "0xbeef"%string true boundary_log Dice) ->
      exists a ts,
        parseLog (chain_provider 10 []) boundary_log = Parsed a
        /\ toLowerCase (arg_player a) = toLowerCase "0xbeef"%string
        /\ c = SetEventsWith (insert_event
                 (make_event boundary_log (Parsed a) (Some (toLowerCase "0xbeef"%string)) Dice ts))).
Proof.
  split.
  - apply (proj1 (handleLog_filters_account (chain_provider 10 []) "0xCAFE"%string true
                    boundary_log Dice) (mkRollArgs "0xBEEF"%string 1 0 1 true)).
    + reflexivity.
    + vm_compute. discriminate.
  - apply (proj2 (handleLog_filters_account (chain_provider 10 []) "0xbeef"%string true
                    boundary_log Dice)).
Defined.

(** C9: when the wallet is not connected or there is no account, the first
    effect only sets the events list to empty and loading to false (no
    historical fetch), and the second effect opens no subscription. *)
Theorem disconnected_resets : forall isConnected currentAccount,
  isConnected = false \/ currentAccount = None ->
  history_effect isConnected currentAccount = [OpSet (SetEventsTo []); OpSet (SetLoading false)]
  /\ subscribe_effect isConnected currentAccount = []
  /\ forall s, apply_actions s (setter_calls (history_effect isConnected currentAccount))
               = mkSt [] false (st_error s).
Proof.
  intros c a H.
  assert (Hg : (negb c || negb (account_truthy a))%bool = true)
    by (destruct H as [-> | ->]; [reflexivity | apply orb_true_r]).
  unfold history_effect, subscribe_effect. rewrite Hg. repeat split.
Qed.

Lemma disconnected_resets_witness :
  (false = false \/ Some "0xbeef"%string = None)
  /\ history_effect false (Some "0xbeef"%string)
       = [OpSet (SetEventsTo []); OpSet (SetLoading false)].
Proof.
  split; [left; reflexivity|].
  apply (disconnected_resets false (Some "0xbeef"%string)). left. reflexivity.
Defined.

(** ** Fetch lemmas *)

Lemma chunk_loop_mounted : forall P contractAddress latestBlock start i fuel,
  chunk_loop P contractAddress latestBlock start (fun _ => true) i fuel
  = (map (chunk_range latestBlock start) (zseq i fuel),
     flat_map (chunk_logs P contractAddress) (map (chunk_range latestBlock start) (zseq i fuel))).
Proof.
  intros P addr L start i fuel. revert i.
  induction fuel as [|fuel IH]; intros i; simpl; [reflexivity|].
  rewrite IH. reflexivity.
Qed.

Lemma parse_logs_app : forall P gt l1 l2,
  parse_logs P gt (l1 ++ l2) = parse_logs P gt l1 ++ parse_logs P gt l2.
Proof.
  intros P gt l1 l2. induction l1 as [|x l1 IH]; simpl; [reflexivity|].
  destruct (parse_one P gt x); rewrite IH; reflexivity.
Qed.


Lemma insert_event_keeps_nodup : forall e prev,
  NoDup (map transactionHash prev) -> NoDup (map transactionHash (insert_event e prev)).
Proof.
  intros e prev Hnd. unfold insert_event.
  destruct (existsb (fun r => String.eqb (transactionHash r) (transactionHash e)) prev)
    eqn:Hex; [exact Hnd|].
  assert (Hall : NoDup (map transactionHash (sort_desc (e :: prev)))).
  { apply (Permutation_NoDup (l := map transactionHash (e :: prev))).
    - apply Permutation_map. symmetry. apply sort_desc_perm.
    - simpl. constructor; [|exact Hnd].
      intros Hin. apply in_map_iff in Hin as [x [Hx Hin]].
      assert (existsb (fun r => String.eqb (transactionHash r) (transactionHash e)) prev = true)
        as Ht by (apply existsb_exists; exists x; split; [exact Hin|]; now apply String.eqb_eq).
      congruence. }
  unfold slice_max.
  rewrite <- (firstn_skipn MAX_RESULTS (sort_desc (e :: prev))) in Hall.
  rewrite map_app in Hall. now apply NoDup_app_remove_r in Hall.
Qed.

(** C2 (fails): the historical merge does not deduplicate.  With the latest
    block at 2000 and one dice Roll log in block 1550, that block lies in
    both the first chunk [1550, 2000] and the second [1100, 1550]; the log
    is fetched twice and the stored list holds two records with the same
    [transactionHash].  (Subscription insertions do keep a duplicate-free
    list duplicate-free: [insert_event_keeps_nodup].) *)
Lemma historical_duplicates_boundary_log :
  let s := apply_actions init_state
             (historical_run (chain_provider 2000 [boundary_log]) (chain_provider 2000 [])
                (fun _ => true) true) in
  reachable s
  /\ map transactionHash (st_events s) = ["0xaa"%string; "0xaa"%string]
  /\ ~ NoDup (map transactionHash (st_events s)).
Proof.
  intros s. split; [|split].
  - unfold s, historical_run. apply reach_historical, reach_init.
  - vm_compute. reflexivity.
  - vm_compute. intros Hnd. inversion Hnd as [|x l Hx Hl]. apply Hx. left. reflexivity.
Qed.

(** C6 (fails): the [getLogs] ranges of the scan.  For a latest block of
    2000 they are [1550, 2000], [1100, 1550], [650, 1100], [200, 650] and
    [0, 200]: consecutive ranges share their boundary block and a full
    range spans 451 blocks.  For a latest block of 0 no range is queried,
    so the window [0, 0] is not covered. *)
Lemma chunk_ranges_overlap : forall P contractAddress,
  fst (chunk_loop P contractAddress 2000 (startBlock 2000) (fun _ => true) 0
         (Z.to_nat (chunksNeeded 2000)))
    = [(1550, 2000); (1100, 1550); (650, 1100); (200, 650); (0, 200)]
  /\ fst (chunk_loop P contractAddress 0 (startBlock 0) (fun _ => true) 0
            (Z.to_nat (chunksNeeded 0))) = [].
Proof.
  intros P addr. split; reflexivity.
Qed.

(** C8 (fails): when the historical fetch settles after the cleanup has set
    [isMounted] to false, the [finally] block still calls
    [setLoading(false)] (the [return] of line 116 runs it), and a rejection
    calls [setError] as well; only [setEvents] is guarded.  On a state that
    is loading (a new fetch after an account switch) the stale fetch turns
    loading off. *)
Lemma setters_after_teardown : forall diceEvents coinflipEvents,
  historical_after_await false (Some (diceEvents, coinflipEvents)) = [SetLoading false]
  /\ historical_after_await false None
       = [SetError (Some "Failed to fetch events"%string); SetLoading false]
  /\ apply_actions (mkSt [] true None) (historical_after_await false (Some ([], [])))
       = mkSt [] false None.
Proof.
  intros d c. repeat split.
Qed.

(** C7 (amended): a chunk whose [getLogs] throws contributes no logs and
    every chunk is still queried exactly once, in order; a log whose parse
    throws or whose block is null or throws is dropped alone; and when
    [getBlockNumber] rejects for either contract the run makes exactly the
    calls [setError('Failed to fetch events')] and [setLoading(false)]: the
    error state holds that message while the rendered view shows the text
    [Error]. *)
Theorem fetch_best_effort : 
  (forall P contractAddress latestBlock start i fuel,
     let rs := map (chunk_range latestBlock start) (zseq i fuel) in
     chunk_loop P contractAddress latestBlock start (fun _ => true) i fuel
     = (rs, flat_map (chunk_logs P contractAddress) rs))
  /\ (forall P gt l1 x l2,
       parseLog P x = ParseThrows \/ getBlock P (log_blockNumber x) = BlockNull
       \/ getBlock P (log_blockNumber x) = BlockThrows ->
       parse_logs P gt (l1 ++ x :: l2) = parse_logs P gt l1 ++ parse_logs P gt l2)
  /\ (forall P_dice P_coin alive isMounted s,
       getBlockNumber P_dice = None \/ getBlockNumber P_coin = None ->
       historical_run P_dice P_coin alive isMounted
         = [SetError (Some "Failed to fetch events"%string); SetLoading false]
       /\ st_error (apply_actions s (historical_run P_dice P_coin alive isMounted))
          = Some "Failed to fetch events"%string
       /\ st_loading (apply_actions s (historical_run P_dice P_coin alive isMounted)) = false
       /\ render (apply_actions s (historical_run P_dice P_coin alive isMounted))
          = ViewError "Error"%string).
Proof.
  split; [|split].
  - intros. apply chunk_loop_mounted.
  - intros P gt l1 x l2 Hx.
    rewrite (parse_logs_app P gt l1 (x :: l2)). f_equal. simpl.
    unfold parse_one.
    destruct Hx as [Hp | [Hb | Hb]].
    + now rewrite Hp.
    + rewrite Hb. destruct (parseLog P x); reflexivity.
    + rewrite Hb. destruct (parseLog P x); reflexivity.
  - intros Pd Pc alive m s Hrej.
    assert (Hrun : historical_run Pd Pc alive m
                   = [SetError (Some "Failed to fetch events"%string); SetLoading false]).
    { unfold historical_run, fetchEventsForContract.
      destruct Hrej as [-> | ->]; [reflexivity|].
      destruct (getBlockNumber Pd); reflexivity. }
    rewrite Hrun. repeat split.
Qed.

Lemma fetch_best_effort_witness :
  parse_logs down_provider Dice ([] ++ boundary_log :: [])
    = parse_logs down_provider Dice [] ++ parse_logs down_provider Dice []
  /\ render (apply_actions init_state (historical_run down_provider down_provider
                                         (fun _ => true) true))
     = ViewError "Error"%string.
Proof.
  split.
  - apply (proj1 (proj2 fetch_best_effort) down_provider Dice [] boundary_log []).
    left. reflexivity.
  - apply (proj2 (proj2 fetch_best_effort) down_provider down_provider (fun _ => true)
             true init_state).
    left. reflexivity.
Defined.

(** C7 (as stated, fails): after a rejected fetch the message
    'Failed to fetch events' is not what the component shows: the view is
    the text [Error]. *)
Lemma fetch_failure_shows_error_text :
  render (apply_actions init_state (historical_run down_provider down_provider
                                      (fun _ => true) true))
    = ViewError "Error"%string
  /\ render (apply_actions init_state (historical_run down_provider down_provider
                                        (fun _ => true) true))
     <> ViewError "Failed to fetch events"%string.
Proof.
  split; vm_compute; [reflexivity | discriminate].
Qed.




(** ** Further properties of the merge and the insertion *)

Lemma insert_desc_filter_eq : forall k e l,
  filter (fun x => Z.eqb (blockNumber x) k) (insert_desc e l)
  = filter (fun x => Z.eqb (blockNumber x) k) (e :: l).
Proof.
  intros k e l. induction l as [|x xs IH]; simpl; [reflexivity|].
  destruct (Z.leb (blockNumber x) (blockNumber e)) eqn:Hle; [reflexivity|].
  apply Z.leb_gt in Hle. simpl. rewrite IH. simpl.
  destruct (Z.eqb (blockNumber e) k) eqn:He, (Z.eqb (blockNumber x) k) eqn:Hx;
    try reflexivity; apply Z.eqb_eq in He, Hx; lia.
Qed.

Lemma sort_desc_filter_eq : forall k l,
  filter (fun x => Z.eqb (blockNumber x) k) (sort_desc l)
  = filter (fun x => Z.eqb (blockNumber x) k) l.
Proof.
  intros k l. induction l as [|x xs IH]; simpl; [reflexivity|].
  rewrite insert_desc_filter_eq. simpl. rewrite IH. reflexivity.
Qed.

Lemma sorted_sort_desc_id : forall l, Sorted desc l -> sort_desc l = l.
Proof.
  induction l as [|x xs IH]; intros Hs; simpl; [reflexivity|].
  apply Sorted_inv in Hs as [Hxs Hhd]. rewrite (IH Hxs).
  destruct xs as [|y ys]; simpl; [reflexivity|].
  apply HdRel_inv in Hhd. unfold desc in Hhd.
  apply Z.leb_le in Hhd. now rewrite Hhd.
Qed.

Lemma strongly_sorted_app : forall (a b : list GameEvent),
  StronglySorted desc (a ++ b) -> forall y x, In y a -> In x b -> desc y x.
Proof.
  induction a as [|z a IH]; intros b Hs y x Hy Hx; [destruct Hy|].
  simpl in Hs. apply StronglySorted_inv in Hs as [Hs Hall].
  destruct Hy as [<-|Hy].
  - rewrite Forall_forall in Hall. apply Hall, in_or_app. now right.
  - now apply (IH b Hs).
Qed.

Lemma desc_transitive : Relations_1.Transitive desc.
Proof. unfold Relations_1.Transitive, desc. intros; lia. Qed.

(** If the new event is not among the first [n] after insertion, those [n]
    are the first [n] of the list before it, all newer than it. *)
Lemma insert_desc_firstn_notin : forall e n l,
  ~ In e (firstn n (insert_desc e l)) ->
  firstn n (insert_desc e l) = firstn n l
  /\ Forall (fun x => blockNumber e < blockNumber x) (firstn n l)
  /\ List.length (firstn n l) = n.
Proof.
  intros e n. induction n as [|n IH]; intros l Hn; [repeat constructor|].
  destruct l as [|x xs]; simpl in *.
  - exfalso. apply Hn. now left.
  - destruct (Z.leb (blockNumber x) (blockNumber e)) eqn:Hle; simpl in Hn.
    + exfalso. apply Hn. now left.
    + apply Z.leb_gt in Hle.
      assert (Hn' : ~ In e (firstn n (insert_desc e xs))) by tauto.
      destruct (IH xs Hn') as [H1 [H2 H3]].
      simpl. rewrite H1, H3. repeat split; auto.
Qed.

Lemma insert_desc_all_newer : forall e l,
  Forall (fun x => blockNumber e < blockNumber x) l -> insert_desc e l = l ++ [e].
Proof.
  intros e l H. induction H as [|x xs Hx Hxs IH]; simpl; [reflexivity|].
  destruct (Z.leb (blockNumber x) (blockNumber e)) eqn:Hle.
  - apply Z.leb_le in Hle. lia.
  - now rewrite IH.
Qed.

Lemma hash_existsb_Exists : forall e prev,
  existsb (fun r => String.eqb (transactionHash r) (transactionHash e)) prev = true
  <-> Exists (fun r => transactionHash r = transactionHash e) prev.
Proof.
  intros e prev. rewrite existsb_exists, Exists_exists. split.
  - intros [x [Hin Heq]]. exists x. split; [exact Hin|]. now apply String.eqb_eq.
  - intros [x [Hin Heq]]. exists x. split; [exact Hin|]. now apply String.eqb_eq.
Qed.

(** Among records of one block number, the historical list keeps the order
    of [diceEvents ++ coinflipEvents]: the sort is stable, so for equal
    blocks dice records come first, and the kept ones are a prefix. *)
Theorem merge_historical_stable : forall diceEvents coinflipEvents k,
  exists dropped,
    filter (fun x => Z.eqb (blockNumber x) k) (diceEvents ++ coinflipEvents)
    = filter (fun x => Z.eqb (blockNumber x) k) (merge_historical diceEvents coinflipEvents)
      ++ dropped.
Proof.
  intros d c k. unfold merge_historical, slice_max.
  exists (filter (fun x => Z.eqb (blockNumber x) k) (skipn MAX_RESULTS (sort_desc (d ++ c)))).
  rewrite <- filter_app, firstn_skipn. symmetry. apply sort_desc_filter_eq.
Qed.

(** The historical list has [min 12 (|diceEvents| + |coinflipEvents|)]
    records. *)
Theorem merge_historical_length : forall diceEvents coinflipEvents,
  List.length (merge_historical diceEvents coinflipEvents)
  = Nat.min MAX_RESULTS (List.length diceEvents + List.length coinflipEvents).
Proof.
  intros d c. unfold merge_historical, slice_max.
  rewrite length_firstn, (Permutation_length (sort_desc_perm (d ++ c))), length_app.
  reflexivity.
Qed.

(** The historical list keeps the newest records: a fetched record newer
    than some kept record is kept too. *)
Theorem merge_historical_keeps_newest : forall diceEvents coinflipEvents x y,
  In x (diceEvents ++ coinflipEvents) ->
  In y (merge_historical diceEvents coinflipEvents) ->
  blockNumber y < blockNumber x ->
  In x (merge_historical diceEvents coinflipEvents).
Proof.
  intros d c x y Hx Hy Hlt. unfold merge_historical, slice_max in *.
  assert (Hxs : In x (sort_desc (d ++ c)))
    by (apply (Permutation_in _ (Permutation_sym (sort_desc_perm (d ++ c)))); exact Hx).
  rewrite <- (firstn_skipn MAX_RESULTS (sort_desc (d ++ c))) in Hxs.
  apply in_app_or in Hxs as [Hxs|Hxs]; [exact Hxs|].
  exfalso.
  assert (Hss : StronglySorted desc (sort_desc (d ++ c)))
    by (apply Sorted_StronglySorted; [exact desc_transitive | apply sort_desc_sorted]).
  rewrite <- (firstn_skipn MAX_RESULTS (sort_desc (d ++ c))) in Hss.
  pose proof (strongly_sorted_app _ _ Hss y x Hy Hxs) as Hd. unfold desc in Hd. lia.
Qed.

Lemma merge_historical_keeps_newest_witness :
  In (event_at 7) (merge_historical [event_at 5] [event_at 7]).
Proof.
  apply (merge_historical_keeps_newest [event_at 5] [event_at 7] (event_at 7) (event_at 5)).
  - right. left. reflexivity.
  - vm_compute. right. left. reflexivity.
  - vm_compute. reflexivity.
Defined.

Lemma insert_event_keeps_nodup_witness :
  NoDup (map transactionHash (insert_event sample_event [])).
Proof.
  apply (insert_event_keeps_nodup sample_event []). constructor.
Defined.

(** A subscription event with a new hash is shown whenever the list has
    fewer than 12 records: the list grows by exactly that record. *)
Theorem insert_event_adds_when_room : forall e prev,
  ~ Exists (fun r => transactionHash r = transactionHash e) prev ->
  (List.length prev < MAX_RESULTS)%nat ->
  In e (insert_event e prev) /\ List.length (insert_event e prev) = S (List.length prev).
Proof.
  intros e prev Hnew Hlen. unfold insert_event.
  destruct (existsb (fun r => String.eqb (transactionHash r) (transactionHash e)) prev)
    eqn:Hex.
  { exfalso. apply Hnew, hash_existsb_Exists, Hex. }
  unfold slice_max.
  assert (Hl : List.length (sort_desc (e :: prev)) = S (List.length prev))
    by (rewrite (Permutation_length (sort_desc_perm (e :: prev))); reflexivity).
  rewrite firstn_all2 by lia. split; [|exact Hl].
  apply (Permutation_in _ (Permutation_sym (sort_desc_perm (e :: prev)))). now left.
Qed.

Lemma insert_event_adds_when_room_witness :
  In (event_at 3) (insert_event (event_at 3) [])
  /\ List.length (insert_event (event_at 3) []) = 1%nat.
Proof.
  apply (insert_event_adds_when_room (event_at 3) []).
  - intros H. inversion H.
  - vm_compute. lia.
Defined.

(** Delivering the same subscription event twice changes the list at most
    once: the second insertion is a no-op, whether the first one kept the
    event, found its hash already present, or cut it as older than the
    12 records shown. *)
Theorem insert_event_idempotent : forall e prev,
  insert_event e (insert_event e prev) = insert_event e prev.
Proof.
  intros e prev.
  assert (Hpresent : forall l,
    existsb (fun r => String.eqb (transactionHash r) (transactionHash e)) l = true ->
    insert_event e l = l)
    by (intros l Hl; unfold insert_event; now rewrite Hl).
  destruct (existsb (fun r => String.eqb (transactionHash r) (transactionHash e))
              (insert_event e prev)) eqn:Hr; [now apply Hpresent|].
  assert (Hnotin : ~ In e (insert_event e prev)).
  { intros Hin. assert (existsb (fun r => String.eqb (transactionHash r) (transactionHash e))
                          (insert_event e prev) = true) as Ht.
    { apply existsb_exists. exists e. split; [exact Hin|]. apply String.eqb_refl. }
    congruence. }
  remember (insert_event e prev) as r eqn:Hdef.
  unfold insert_event in Hdef.
  destruct (existsb (fun r => String.eqb (transactionHash r) (transactionHash e)) prev)
    eqn:Hp.
  { subst r. congruence. }
  unfold slice_max in Hdef. cbn [sort_desc] in Hdef. subst r.
  destruct (insert_desc_firstn_notin e MAX_RESULTS (sort_desc prev) Hnotin)
    as [Heq [Hall Hlen]].
  rewrite Heq in Hr, Hnotin |- *.
  unfold insert_event. rewrite Hr.
  assert (Hs : Sorted desc (firstn MAX_RESULTS (sort_desc prev)))
    by (apply firstn_sorted, sort_desc_sorted).
  unfold slice_max. cbn [sort_desc].
  rewrite (sorted_sort_desc_id _ Hs), (insert_desc_all_newer _ _ Hall).
  rewrite firstn_app, Hlen, Nat.sub_diag, firstn_O, app_nil_r.
  apply firstn_all2. lia.
Qed.

(** ** The block scan *)

Lemma in_zseq : forall k i n, In k (zseq i n) <-> i <= k < i + Z.of_nat n.
Proof.
  intros k i n. revert i. induction n as [|n IH]; intros i; simpl; [lia|].
  rewrite IH. lia.
Qed.

Lemma length_zseq : forall i n, List.length (zseq i n) = n.
Proof. intros i n. revert i. induction n; intros i; simpl; auto. Qed.

Lemma ceil_div_chunk : forall a,
  MAX_CHUNK_SIZE * ceil_div a MAX_CHUNK_SIZE - MAX_CHUNK_SIZE < a
  <= MAX_CHUNK_SIZE * ceil_div a MAX_CHUNK_SIZE.
Proof.
  intros a. unfold ceil_div, MAX_CHUNK_SIZE.
  pose proof (Z.div_mod (- a) 450 ltac:(lia)).
  pose proof (Z.mod_pos_bound (- a) 450 ltac:(lia)).
  lia.
Qed.

(** For a latest block [L >= 0] the scan queries at most 5 ranges; each
    lies inside the window [[max(L - 2000, 0), L]] and spans at most 451
    blocks ([toBlock - fromBlock <= 450]); and when [L > 0] every block of
    the window is in some queried range. *)
Theorem chunk_scan_window : forall P contractAddress latestBlock,
  0 <= latestBlock ->
  let start := startBlock latestBlock in
  let qs := fst (chunk_loop P contractAddress latestBlock start (fun _ => true) 0
                   (Z.to_nat (chunksNeeded latestBlock))) in
  (List.length qs <= 5)%nat
  /\ (forall fromBlock toBlock, In (fromBlock, toBlock) qs ->
        start <= fromBlock <= toBlock /\ toBlock <= latestBlock
        /\ toBlock - fromBlock <= MAX_CHUNK_SIZE)
  /\ (0 < latestBlock -> forall b, start <= b <= latestBlock ->
        exists fromBlock toBlock, In (fromBlock, toBlock) qs /\ fromBlock <= b <= toBlock).
Proof.
  intros P addr L HL start qs.
  unfold qs. rewrite chunk_loop_mounted. simpl fst.
  pose proof (ceil_div_chunk (L - start)) as Hc.
  assert (Hst : start = Z.max (L - 2000) 0) by reflexivity.
  set (n := chunksNeeded L) in *.
  assert (Hn : ceil_div (L - start) MAX_CHUNK_SIZE = n) by reflexivity.
  rewrite Hn in Hc. unfold MAX_CHUNK_SIZE in *.
  split; [|split].
  - rewrite length_map, length_zseq. lia.
  - intros f t Hin. apply in_map_iff in Hin as [i [Hr Hi]].
    apply in_zseq in Hi. rewrite Z2Nat.id in Hi by lia.
    unfold chunk_range, MAX_CHUNK_SIZE in Hr. injection Hr as <- <-. lia.
  - intros Hpos b Hb.
    pose proof (Z.div_mod (L - b) 450 ltac:(lia)) as Hj.
    pose proof (Z.mod_pos_bound (L - b) 450 ltac:(lia)) as Hr.
    set (j := (L - b) / 450) in *.
    set (i := Z.min j (n - 1)).
    exists (fst (chunk_range L start i)), (snd (chunk_range L start i)).
    split.
    + rewrite <- surjective_pairing. apply in_map, in_zseq.
      rewrite Z2Nat.id by lia. unfold i. lia.
    + unfold chunk_range, MAX_CHUNK_SIZE, i. simpl. lia.
Qed.

Lemma chunk_scan_window_witness :
  (List.length (fst (chunk_loop (chain_provider 2000 []) DICE_CONTRACT_ADDRESS 2000
     (startBlock 2000) (fun _ => true) 0 (Z.to_nat (chunksNeeded 2000)))) <= 5)%nat.
Proof.
  apply (chunk_scan_window (chain_provider 2000 []) DICE_CONTRACT_ADDRESS 2000).
  lia.
Defined.

(** The scan stops at the first loop test that finds [isMounted] false: the
    queries made are the first [k] chunks, all tested while mounted, and the
    logs collected are those of these chunks only. *)
Theorem chunk_loop_stops_on_unmount : forall P contractAddress latestBlock start alive i fuel,
  exists k,
    (k <= fuel)%nat
    /\ chunk_loop P contractAddress latestBlock start alive i fuel
       = (map (chunk_range latestBlock start) (zseq i k),
          flat_map (chunk_logs P contractAddress) (map (chunk_range latestBlock start) (zseq i k)))
    /\ Forall (fun j => alive j = true) (zseq i k)
    /\ ((k < fuel)%nat -> alive (i + Z.of_nat k) = false).
Proof.
  intros P addr L start alive i fuel. revert i.
  induction fuel as [|fuel IH]; intros i.
  - exists O. simpl. split; [lia|]. split; [reflexivity|]. split; [constructor | lia].
  - simpl. destruct (alive i) eqn:Ha.
    + destruct (IH (i + 1)) as [k [Hk [Heq [Hall Hstop]]]].
      exists (S k). rewrite Heq. simpl. split; [lia|]. split; [reflexivity|].
      split; [constructor; assumption|].
      intros Hlt. rewrite <- Hstop by lia. f_equal. lia.
    + exists O. simpl. split; [lia|]. split; [reflexivity|]. split; [constructor|].
      intros _. now rewrite Z.add_0_r.
Qed.

(** Every record of [fetchEventsForContract] comes from a fetched log: same
    block number, the log's hash or ["unknown"] (never the empty string),
    the requested game type, and the timestamp of the log's block. *)
Theorem parse_logs_origin : forall P gt logs e,
  In e (parse_logs P gt logs) ->
  exists x ts,
    In x logs
    /\ blockNumber e = log_blockNumber x
    /\ transactionHash e = hash_or_unknown (log_transactionHash x)
    /\ transactionHash e <> EmptyString
    /\ ev_gameType e = gt
    /\ getBlock P (log_blockNumber x) = Block ts
    /\ timestamp e = ts.
Proof.
  intros P gt logs e. induction logs as [|x logs IH]; simpl; [contradiction|].
  destruct (parse_one P gt x) as [r|] eqn:Hx.
  - intros [<-|Hin]; [|destruct (IH Hin) as [y [ts Hy]]; exists y, ts; tauto].
    unfold parse_one in Hx.
    destruct (getBlock P (log_blockNumber x)) as [| |ts] eqn:Hb;
      destruct (parseLog P x); try discriminate; injection Hx as <-;
      exists x, ts; simpl; repeat split; auto;
      unfold hash_or_unknown; destruct (log_transactionHash x) as [h|];
      try destruct (String.eqb h "") eqn:Hh; try discriminate;
      intros ->; discriminate.
  - intros Hin. destruct (IH Hin) as [y [ts Hy]]. exists y, ts. tauto.
Qed.

Lemma parse_logs_origin_witness :
  exists x ts,
    In x [boundary_log]
    /\ blockNumber (event_at 1550) = log_blockNumber x
    /\ transactionHash (event_at 1550) = hash_or_unknown (log_transactionHash x)
    /\ transactionHash (event_at 1550) <> EmptyString
    /\ ev_gameType (event_at 1550) = Dice
    /\ getBlock (chain_provider 2000 []) (log_blockNumber x) = Block ts
    /\ timestamp (event_at 1550) = ts.
Proof.
  apply (parse_logs_origin (chain_provider 2000 []) Dice [boundary_log] (event_at 1550)).
  vm_compute. left. reflexivity.
Defined.

(** ** Effects and rendering *)

Lemma apply_actions_app : forall s l1 l2,
  apply_actions s (l1 ++ l2) = apply_actions (apply_actions s l1) l2.
Proof. intros. unfold apply_actions. apply fold_left_app. Qed.

(** A connected historical run, from the effect's first calls to the end of
    the [finally] block, leaves loading off; the error is the generic
    message exactly when the fetch rejected and [null] otherwise; the list
    is replaced by the merge only when the fetch resolved while mounted,
    and is left as it was in every other case. *)
Theorem historical_effect_outcome : forall s currentAccount isMounted r,
  account_truthy currentAccount = true ->
  let s' := apply_actions s (setter_calls (history_effect true currentAccount)
                             ++ historical_after_await isMounted r) in
  st_loading s' = false
  /\ st_error s' = match r with
                   | None => Some "Failed to fetch events"%string
                   | Some _ => None
                   end
  /\ st_events s' = match r, isMounted with
                    | Some (d, c), true => merge_historical d c
                    | _, _ => st_events s
                    end.
Proof.
  intros s acc m r Hacc s'. unfold s'. rewrite apply_actions_app.
  unfold history_effect. rewrite Hacc. simpl.
  destruct r as [[d c]|]; [destruct m|]; repeat split.
Qed.

Lemma historical_effect_outcome_witness :
  st_loading (apply_actions init_state
    (setter_calls (history_effect true (Some "0xbeef"%string))
     ++ historical_after_await true None)) = false.
Proof.
  apply (historical_effect_outcome init_state (Some "0xbeef"%string) true None).
  reflexivity.
Defined.

(** [handleLog] makes at most one setter call, and none when the parse
    throws or finds no fragment, when the block is null or its lookup
    throws, or when the component is unmounted. *)
Theorem handleLog_at_most_one_call : forall P currentAccount isMounted log gt,
  (List.length (handleLog P currentAccount isMounted log gt) <= 1)%nat
  /\ (isMounted = false \/ parseLog P log = ParseThrows \/ parseLog P log = ParseNull
      \/ getBlock P (log_blockNumber log) = BlockNull
      \/ getBlock P (log_blockNumber log) = BlockThrows ->
      handleLog P currentAccount isMounted log gt = []).
Proof.
  intros P acc m log gt. unfold handleLog. split.
  - destruct (parseLog P log); simpl; try lia;
      destruct negb; simpl; try lia;
      destruct (getBlock P (log_blockNumber log)); simpl; try lia;
      destruct m; simpl; lia.
  - intros H. destruct H as [-> | [Hp | [Hp | [Hb | Hb]]]].
    + destruct (parseLog P log); try reflexivity; destruct negb; try reflexivity;
        destruct (getBlock P (log_blockNumber log)); reflexivity.
    + now rewrite Hp.
    + now rewrite Hp.
    + rewrite Hb. destruct (parseLog P log); try reflexivity; now destruct negb.
    + rewrite Hb. destruct (parseLog P log); try reflexivity; now destruct negb.
Qed.

Lemma handleLog_at_most_one_call_witness :
  handleLog (chain_provider 10 []) "0xbeef"%string false boundary_log Dice = [].
Proof.
  apply (handleLog_at_most_one_call (chain_provider 10 []) "0xbeef"%string false
           boundary_log Dice).
  left. reflexivity.
Defined.

Lemma row_renders_all : forall l,
  forallb row_renders l = true <-> Forall (fun e => amount e <> None) l.
Proof.
  intros l. rewrite forallb_forall, Forall_forall. unfold row_renders.
  split; intros H e He; specialize (H e He); destruct (amount e); try discriminate;
    try contradiction; auto.
Qed.

Lemma row_renders_some : forall l,
  forallb row_renders l = false <-> Exists (fun e => amount e = None) l.
Proof.
  intros l. split.
  - intros Hf. apply Exists_exists.
    destruct (existsb (fun e => negb (row_renders e)) l) eqn:Hx.
    + apply existsb_exists in Hx as [e [He Hn]]. exists e. split; [exact He|].
      unfold row_renders in Hn. destruct (amount e); [discriminate | reflexivity].
    + exfalso. assert (forallb row_renders l = true) as Ht; [|congruence].
      apply forallb_forall. intros e He.
      destruct (row_renders e) eqn:Hr; [reflexivity|].
      assert (existsb (fun e => negb (row_renders e)) l = true) as Hy; [|congruence].
      apply existsb_exists. exists e. now rewrite Hr.
  - intros Hx. destruct (forallb row_renders l) eqn:Hf; [|reflexivity].
    apply row_renders_all in Hf. rewrite Forall_forall in Hf.
    apply Exists_exists in Hx as [e [He Hn]]. exfalso. exact (Hf e He Hn).
Qed.

(** The view shown: "Loading events..." exactly while loading with an
    empty list; the table exactly when the list is non-empty, the error is
    [null] or empty and every record has an amount, showing the list in
    its order (also while a new fetch is loading); and drawing throws
    exactly when the list is non-empty, the error is [null] or empty and
    some record has an [undefined] amount. *)
Theorem render_cases : forall s,
  (render s = ViewLoading <-> st_loading s = true /\ st_events s = [])
  /\ (forall rows, render s = ViewTable rows <->
        rows = st_events s /\ st_events s <> []
        /\ (st_error s = None \/ st_error s = Some EmptyString)
        /\ Forall (fun e => amount e <> None) (st_events s))
  /\ (render s = ViewThrows <->
        st_events s <> []
        /\ (st_error s = None \/ st_error s = Some EmptyString)
        /\ Exists (fun e => amount e = None) (st_events s)).
Proof.
  intros [evs ld er]. unfold render. cbn [st_events st_loading st_error].
  destruct (forallb row_renders evs) eqn:Hf.
  - pose proof (proj1 (row_renders_all _) Hf) as Hall.
    assert (Hnx : ~ Exists (fun e => amount e = None) evs)
      by (intros Hx; apply row_renders_some in Hx; congruence).
    destruct evs as [|ev evs]; destruct ld; destruct er as [e|];
      try destruct (String.eqb e "") eqn:He; simpl;
      try (apply String.eqb_eq in He; subst e);
      repeat split; intros;
      repeat match goal with
             | H : _ /\ _ |- _ => destruct H
             | H : _ \/ _ |- _ => destruct H
             | H : Some _ = Some _ |- _ => injection H as H; subst
             end;
      subst; try discriminate; try congruence; auto.
  - pose proof (proj1 (row_renders_some _) Hf) as Hx.
    assert (Hna : ~ Forall (fun e => amount e <> None) evs)
      by (intros Hall; apply row_renders_all in Hall; congruence).
    destruct evs as [|ev evs]; destruct ld; destruct er as [e|];
      try destruct (String.eqb e "") eqn:He; simpl;
      try (apply String.eqb_eq in He; subst e);
      repeat split; intros;
      repeat match goal with
             | H : _ /\ _ |- _ => destruct H
             | H : _ \/ _ |- _ => destruct H
             | H : Some _ = Some _ |- _ => injection H as H; subst
             end;
      subst; try discriminate; try congruence; auto.
Qed.

(** [formatTimestamp] says "NaN days ago" when [timestamp * 1000] is out
    of the [Date] range.  Otherwise it says "Just now" exactly when less
    than a minute has elapsed (also for timestamps in the future), and else
    shows a count of at least 1 with the singular unit exactly for 1:
    minutes below 60, hours from 1 to 23, or whole days. *)
Theorem formatTimestamp_cases : forall nowMs ts,
  let diff := (nowMs - ts * 1000) / 60000 in
  (MAX_DATE_MS < Z.abs (ts * 1000) /\ formatTimestamp nowMs ts = "NaN days ago"%string)
  \/ (Z.abs (ts * 1000) <= MAX_DATE_MS
      /\ ((nowMs - ts * 1000 < 60000 /\ formatTimestamp nowMs ts = "Just now"%string)
          \/ (1 <= diff < 60
              /\ formatTimestamp nowMs ts
                 = (dec diff ++ " min" ++ plural_s diff ++ " ago")%string)
          \/ (1 <= diff / 60 < 24 /\ 60 <= diff < 1440
              /\ formatTimestamp nowMs ts
                 = (dec (diff / 60) ++ " hour" ++ plural_s (diff / 60) ++ " ago")%string)
          \/ (1 <= diff / 1440 /\ 1440 <= diff
              /\ formatTimestamp nowMs ts
                 = (dec (diff / 1440) ++ " day" ++ plural_s (diff / 1440) ++ " ago")%string))).
Proof.
  intros now ts diff. unfold formatTimestamp. fold diff.
  destruct (MAX_DATE_MS <? Z.abs (ts * 1000)) eqn:Ev.
  { left. apply Z.ltb_lt in Ev. split; [exact Ev | reflexivity]. }
  apply Z.ltb_ge in Ev. right. split; [exact Ev|].
  pose proof (Z.div_mod (now - ts * 1000) 60000 ltac:(lia)).
  pose proof (Z.mod_pos_bound (now - ts * 1000) 60000 ltac:(lia)).
  destruct (diff <? 1) eqn:E1; [left; apply Z.ltb_lt in E1; split; [lia | reflexivity]|].
  apply Z.ltb_ge in E1. right.
  destruct (diff <? 60) eqn:E2; [left; apply Z.ltb_lt in E2; split; [lia | reflexivity]|].
  apply Z.ltb_ge in E2. right.
  pose proof (Z.div_mod diff 60 ltac:(lia)).
  pose proof (Z.mod_pos_bound diff 60 ltac:(lia)).
  pose proof (Z.div_mod diff 1440 ltac:(lia)).
  pose proof (Z.mod_pos_bound diff 1440 ltac:(lia)).
  destruct (diff <? 1440) eqn:E3.
  - left. apply Z.ltb_lt in E3. split; [lia|]. split; [lia | reflexivity].
  - right. apply Z.ltb_ge in E3. split; [lia|]. split; [lia | reflexivity].
Qed.

(** In every reachable state the error is [null] or the generic message
    'Failed to fetch events'. *)
Theorem error_is_generic : forall s,
  reachable s ->
  st_error s = None \/ st_error s = Some "Failed to fetch events"%string.
Proof.
  assert (Hgen : forall acts s,
    Forall (fun a => match a with
                     | SetError e => e = None \/ e = Some "Failed to fetch events"%string
                     | _ => True
                     end) acts ->
    st_error s = None \/ st_error s = Some "Failed to fetch events"%string ->
    st_error (apply_actions s acts) = None
    \/ st_error (apply_actions s acts) = Some "Failed to fetch events"%string).
  { induction acts as [|a acts IH]; intros s Hall Hs; simpl; [exact Hs|].
    inversion Hall as [|? ? Ha Hrest]; subst.
    apply IH; [exact Hrest|]. destruct a; simpl; auto. }
  induction 1 as [| s c a Hr IH | s m r Hr IH | s P a m log gt Hr IH].
  - left. reflexivity.
  - apply Hgen; [|exact IH]. unfold history_effect.
    destruct (negb c || negb (account_truthy a)); simpl;
      repeat (apply Forall_cons; [auto|]); apply Forall_nil.
  - apply Hgen; [|exact IH]. destruct r as [[d c]|]; [destruct m|]; simpl;
      repeat (apply Forall_cons; [auto|]); apply Forall_nil.
  - apply Hgen; [|exact IH]. apply Forall_forall. intros x Hx.
    unfold handleLog in Hx.
    destruct (parseLog P log); simpl in Hx; try contradiction;
      destruct negb; simpl in Hx; try contradiction;
      destruct (getBlock P (log_blockNumber log)); simpl in Hx; try contradiction;
      destruct m; simpl in Hx; try contradiction;
      destruct Hx as [<-|[]]; exact I.
Qed.

Lemma error_is_generic_witness :
  st_error (apply_actions init_state (historical_after_await true None)) = None
  \/ st_error (apply_actions init_state (historical_after_await true None))
     = Some "Failed to fetch events"%string.
Proof.
  apply error_is_generic. apply reach_historical, reach_init.
Defined.

Lemma render_cases_witness :
  render (mkSt [sample_event] true None) = ViewTable [sample_event].
Proof.
  apply (proj2 (proj1 (proj2 (render_cases (mkSt [sample_event] true None))) [sample_event])).
  split; [reflexivity|]. split; [discriminate|]. split; [left; reflexivity|].
  constructor; [discriminate | constructor].
Defined.

Lemma chunk_loop_stops_on_unmount_witness :
  exists k,
    (k <= 5)%nat
    /\ chunk_loop (chain_provider 2000 []) DICE_CONTRACT_ADDRESS 2000 0
         (fun j => Z.ltb j 2) 0 5
       = (map (chunk_range 2000 0) (zseq 0 k),
          flat_map (chunk_logs (chain_provider 2000 []) DICE_CONTRACT_ADDRESS)
            (map (chunk_range 2000 0) (zseq 0 k)))
    /\ Forall (fun j => Z.ltb j 2 = true) (zseq 0 k)
    /\ ((k < 5)%nat -> Z.ltb (0 + Z.of_nat k) 2 = false).
Proof.
  apply (chunk_loop_stops_on_unmount (chain_provider 2000 []) DICE_CONTRACT_ADDRESS
           2000 0 (fun j => Z.ltb j 2) 0 5).
Defined.
